(** * The Oppia fraction editor: directive and fraction value object

    A shallow embedding of
    [extensions/objects/templates/fraction-editor.directive.ts] together
    with the fraction value object the directive is injected with.

    Layout: all definitions first (JavaScript strings, a small regular
    expression engine, the fraction value object, the controller written in
    a state-and-exception monad), then the lemmas about them. *)

From Stdlib Require Import List NArith ZArith Bool Lia String Ascii.
From Stdlib Require Import Decimal DecimalN.
Import ListNotations.

Set Implicit Arguments.

(* ================================================================== *)
(** * JavaScript strings *)
(* ================================================================== *)

(** A JavaScript string is a sequence of UTF-16 code units. *)
Definition char16 : Type := N.
Definition jsstring : Type := list char16.

(** Literals: an ASCII string read as its code units. *)
Definition js (s : string) : jsstring :=
  map N_of_ascii (list_ascii_of_string s).

Definition HYPHEN_MINUS : char16 := 0x2D%N.
Definition SOLIDUS : char16 := 0x2F%N.
Definition SPACE : char16 := 0x20%N.
Definition DIGIT_ZERO : char16 := 0x30%N.

(** The code units ECMAScript calls WhiteSpace or LineTerminator: what the
    class escape [\s] matches and what [String.prototype.trim] strips. *)
Definition WHITE_SPACE_UNITS : list char16 :=
  [0x9; 0xA; 0xB; 0xC; 0xD; 0x20; 0xA0; 0x1680; 0x2028; 0x2029;
   0x202F; 0x205F; 0x3000; 0xFEFF]%N.

Definition isWhiteSpace (c : char16) : bool :=
  existsb (N.eqb c) WHITE_SPACE_UNITS
  || ((0x2000 <=? c)%N && (c <=? 0x200A)%N).

(** [\d] : the ten ASCII digits. *)
Definition isDigit (c : char16) : bool :=
  ((0x30 <=? c)%N && (c <=? 0x39)%N).

Definition isChar (k c : char16) : bool := N.eqb c k.

(* ================================================================== *)
(** * Regular expressions *)
(* ================================================================== *)

Module RegExp.

(** The fragment of the pattern language the directive uses: character
    classes, concatenation, [?] and [*].  [Void] is only produced by
    derivation. *)
Inductive regex : Type :=
| Void
| Eps
| Class (p : char16 -> bool)
| Cat (r1 r2 : regex)
| Alt (r1 r2 : regex)
| Star (r : regex).

Definition Opt (r : regex) : regex := Alt r Eps.

(** The words of a pattern. *)
Inductive lang : regex -> jsstring -> Prop :=
| lang_eps : lang Eps []
| lang_class p c : p c = true -> lang (Class p) [c]
| lang_cat r1 r2 s1 s2 :
    lang r1 s1 -> lang r2 s2 -> lang (Cat r1 r2) (s1 ++ s2)
| lang_alt_l r1 r2 s : lang r1 s -> lang (Alt r1 r2) s
| lang_alt_r r1 r2 s : lang r2 s -> lang (Alt r1 r2) s
| lang_star_nil r : lang (Star r) []
| lang_star_more r s1 s2 :
    lang r s1 -> lang (Star r) s2 -> lang (Star r) (s1 ++ s2).

Fixpoint nullable (r : regex) : bool :=
  match r with
  | Void => false
  | Eps => true
  | Class _ => false
  | Cat r1 r2 => nullable r1 && nullable r2
  | Alt r1 r2 => nullable r1 || nullable r2
  | Star _ => true
  end.

(** What is left of [r] after reading the code unit [c]. *)
Fixpoint deriv (c : char16) (r : regex) : regex :=
  match r with
  | Void => Void
  | Eps => Void
  | Class p => if p c then Eps else Void
  | Cat r1 r2 =>
      if nullable r1
      then Alt (Cat (deriv c r1) r2) (deriv c r2)
      else Cat (deriv c r1) r2
  | Alt r1 r2 => Alt (deriv c r1) (deriv c r2)
  | Star r1 => Cat (deriv c r1) (Star r1)
  end.

Fixpoint matches (r : regex) (s : jsstring) : bool :=
  match s with
  | [] => nullable r
  | c :: s' => matches (deriv c r) s'
  end.

(** [/^r$/.test(s)]: the pattern is anchored at both ends and carries no
    flag, so the test is a match of the whole string and keeps no state
    between calls. *)
Definition test (r : regex) (s : jsstring) : bool := matches r s.

End RegExp.

Import RegExp.

(** [/^\s*-?\s*$/] *)
Definition INTERMEDIATE_REGEX : regex :=
  Cat (Star (Class isWhiteSpace))
      (Cat (Opt (Class (isChar HYPHEN_MINUS)))
           (Star (Class isWhiteSpace))).

(** The intermediate inputs in the specification's words: optional
    whitespace, an optional single ['-'], optional whitespace. *)
Definition intermediate_input (s : jsstring) : Prop :=
  exists lead sign trail,
    s = lead ++ sign ++ trail
    /\ Forall (fun c => isWhiteSpace c = true) lead
    /\ (sign = [] \/ sign = [HYPHEN_MINUS])
    /\ Forall (fun c => isWhiteSpace c = true) trail.

(* ================================================================== *)
(** * The fraction value object *)
(* ================================================================== *)

(** Modelled from the spec: the [Fraction] value type of section 3, whose
    declaration lives in the fraction object factory.  The fields are
    JavaScript numbers holding integers. *)
Record Fraction : Type := mkFraction {
  isNegative : bool;
  wholeNumber : Z;
  numerator : Z;
  denominator : Z
}.

(** Modelled from the spec: the structured record [fromStructured] reads,
    every field optional. *)
Record FractionDict : Type := mkFractionDict {
  dict_isNegative : option bool;
  dict_wholeNumber : option Z;
  dict_numerator : option Z;
  dict_denominator : option Z
}.

(** Modelled from the spec: the error taxonomy of section 7. *)
Inductive ErrorKind : Type :=
| InvalidFormat
| InvalidDenominator
| NumberTooLarge.

(** Modelled from the spec: what [parse] throws, an error with its kind
    and the message the caller displays. *)
Record ParseError : Type := mkParseError {
  kind : ErrorKind;
  message : jsstring
}.

(** The outcome of a call that returns a value or throws. *)
Inductive Result (A : Type) : Type :=
| Ok (a : A)
| Err (e : ParseError).

Arguments Ok {A} a.
Arguments Err {A} e.

(** The data-model invariants of section 3. *)
Definition valid_fraction (f : Fraction) : Prop :=
  (0 <= wholeNumber f)%Z /\ (0 <= numerator f)%Z /\ (0 < denominator f)%Z.

(** The fraction object factory is injected into the directive and its
    source is not part of the files at hand; the operations below follow
    section 4.1 of the specification. *)
Module FractionValue.

Open Scope Z_scope.

(** Modelled from the spec: the human-readable message of each error
    kind.  Section 7 describes the three cases and gives no wording; any
    three texts that tell the cases apart do. *)
Definition FRACTION_PARSING_ERRORS (k : ErrorKind) : jsstring :=
  match k with
  | InvalidFormat =>
      js "The input does not match any of the three accepted forms"
  | InvalidDenominator =>
      js "The denominator evaluates to zero"
  | NumberTooLarge =>
      js "A number exceeds the safe range"
  end.

Definition parse_error (k : ErrorKind) : ParseError :=
  mkParseError k (FRACTION_PARSING_ERRORS k).

(** Modelled from the spec: the safe-integer boundary the overflow guard
    uses, the ambient limit of the platform's numbers (2^53 - 1). *)
Definition MAX_SAFE_INTEGER : Z := 9007199254740991.

(** ** Decimal literals *)

(** The code units of a decimal numeral, most significant digit first. *)
Fixpoint units_of_uint (d : uint) : jsstring :=
  match d with
  | Nil => []
  | D0 d' => 0x30%N :: units_of_uint d'
  | D1 d' => 0x31%N :: units_of_uint d'
  | D2 d' => 0x32%N :: units_of_uint d'
  | D3 d' => 0x33%N :: units_of_uint d'
  | D4 d' => 0x34%N :: units_of_uint d'
  | D5 d' => 0x35%N :: units_of_uint d'
  | D6 d' => 0x36%N :: units_of_uint d'
  | D7 d' => 0x37%N :: units_of_uint d'
  | D8 d' => 0x38%N :: units_of_uint d'
  | D9 d' => 0x39%N :: units_of_uint d'
  end.

(** The decimal digit a code unit stands for. *)
Definition digit_of_unit (c : char16) : option (uint -> uint) :=
  if isDigit c then
    Some (match (c - DIGIT_ZERO)%N with
          | 0%N => D0 | 1%N => D1 | 2%N => D2 | 3%N => D3 | 4%N => D4
          | 5%N => D5 | 6%N => D6 | 7%N => D7 | 8%N => D8 | _ => D9
          end)
  else None.

(** The numeral spelled by a text made of digits only. *)
Fixpoint uint_of_units (s : jsstring) : option uint :=
  match s with
  | [] => Some Nil
  | c :: s' =>
      match digit_of_unit c, uint_of_units s' with
      | Some k, Some d => Some (k d)
      | _, _ => None
      end
  end.

(** Modelled from the spec: how [toString] prints a number field; the
    conversion of an integer to its decimal text. *)
Definition numberToString (z : Z) : jsstring :=
  match z with
  | Zneg p => HYPHEN_MINUS :: units_of_uint (Pos.to_uint p)
  | _ => units_of_uint (N.to_uint (Z.to_N z))
  end.

(** Modelled from the spec: the value of a [digits] group of the grammar
    ([None] when the text is not one). *)
Definition literal_value (s : jsstring) : option Z :=
  match s with
  | [] => None
  | _ => option_map (fun d => Z.of_N (N.of_uint d)) (uint_of_units s)
  end.

(** ** String helpers *)

Fixpoint drop_while (p : char16 -> bool) (s : jsstring) : jsstring :=
  match s with
  | [] => []
  | c :: s' => if p c then drop_while p s' else s
  end.

(** The longest prefix of [s] satisfying [p], and what follows it. *)
Fixpoint span (p : char16 -> bool) (s : jsstring) : jsstring * jsstring :=
  match s with
  | [] => ([], [])
  | c :: s' =>
      if p c then let (a, b) := span p s' in (c :: a, b) else ([], s)
  end.

(** [String.prototype.trim]: whitespace stripped at both ends. *)
Definition trim (s : jsstring) : jsstring :=
  List.rev (drop_while isWhiteSpace (List.rev (drop_while isWhiteSpace s))).

(** A digit group: non-empty, digits only. *)
Definition is_digits (s : jsstring) : bool :=
  match s with
  | [] => false
  | _ => forallb isDigit s
  end.

(** ** fromStructured *)

Definition or_default {A : Type} (o : option A) (d : A) : A :=
  match o with
  | Some a => a
  | None => d
  end.

(** Modelled from the spec: [fromStructured] of section 4.1: defaults
    false, 0, 0 and 1 for the fields left out, and no validation. *)
Definition fromStructured (d : FractionDict) : Fraction :=
  {| isNegative := or_default (dict_isNegative d) false;
     wholeNumber := or_default (dict_wholeNumber d) 0;
     numerator := or_default (dict_numerator d) 0;
     denominator := or_default (dict_denominator d) 1 |}.

(** ** parse *)

(** Modelled from the spec: the three accepted forms of the grammar of
    [parse], with their digit groups. *)
Inductive shape : Type :=
| IntegerOnly (w : jsstring)
| SimpleFraction (n d : jsstring)
| MixedNumber (w n d : jsstring).

(** Modelled from the spec: the fractional part of the grammar,
    [digits "/" digits] up to the end of the input, no whitespace around
    the ['/']. *)
Definition split_fraction (s : jsstring) : option (jsstring * jsstring) :=
  let (n, rest) := span isDigit s in
  match rest with
  | [] => None
  | c :: d =>
      if isChar SOLIDUS c && is_digits n && is_digits d
      then Some (n, d)
      else None
  end.

(** Modelled from the spec: the grammar of [parse] on the trimmed,
    unsigned text: [digits], [digits "/" digits] or
    [digits spaces digits "/" digits], nothing else. *)
Definition match_shape (s : jsstring) : option shape :=
  let (w, rest) := span isDigit s in
  if is_digits w then
    match rest with
    | [] => Some (IntegerOnly w)
    | c :: rest' =>
        if isChar SOLIDUS c then
          if is_digits rest' then Some (SimpleFraction w rest') else None
        else if isChar SPACE c then
          match split_fraction (drop_while (isChar SPACE) rest') with
          | Some (n, d) => Some (MixedNumber w n d)
          | None => None
          end
        else None
    end
  else None.

(** Modelled from the spec: whole number, numerator and denominator of a
    matched form; the parts a form does not have take the structural
    defaults. *)
Definition shape_values (sh : shape) : option (Z * Z * Z) :=
  match sh with
  | IntegerOnly w =>
      match literal_value w with
      | Some vw => Some (vw, 0, 1)
      | None => None
      end
  | SimpleFraction n d =>
      match literal_value n, literal_value d with
      | Some vn, Some vd => Some (0, vn, vd)
      | _, _ => None
      end
  | MixedNumber w n d =>
      match literal_value w, literal_value n, literal_value d with
      | Some vw, Some vn, Some vd => Some (vw, vn, vd)
      | _, _, _ => None
      end
  end.

(** Modelled from the spec: a leading ['-'] marks the value negative. *)
Definition split_sign (s : jsstring) : bool * jsstring :=
  match s with
  | c :: s' => if isChar HYPHEN_MINUS c then (true, s') else (false, s)
  | [] => (false, [])
  end.

(** Modelled from the spec: the form of the unsigned text and the
    semantic validation of [parse]: the denominator check, then the
    overflow guard at [bound]. *)
Definition parse_body (bound : Z) (neg : bool) (body : jsstring)
    : Result Fraction :=
  match match_shape body with
  | None => Err (parse_error InvalidFormat)
  | Some sh =>
      match shape_values sh with
      | None => Err (parse_error InvalidFormat)
      | Some (w, n, d) =>
          if d =? 0 then Err (parse_error InvalidDenominator)
          else if (bound <? w) || (bound <? n) || (bound <? d)
          then Err (parse_error NumberTooLarge)
          else Ok (mkFraction neg w n d)
      end
  end.

(** Modelled from the spec: [parse] of section 4.1, for a safe-integer
    boundary [bound]: trim, optional sign, one of the three forms, then
    the semantic validation. *)
Definition parse_upto (bound : Z) (raw : jsstring) : Result Fraction :=
  let (neg, body) := split_sign (trim raw) in
  parse_body bound neg body.

(** Modelled from the spec: [parse] at the platform's boundary. *)
Definition parse (raw : jsstring) : Result Fraction :=
  parse_upto MAX_SAFE_INTEGER raw.

(** ** toString *)

Definition sign_prefix (f : Fraction) : jsstring :=
  if isNegative f then [HYPHEN_MINUS] else [].

(** Modelled from the spec: [toString] of section 4.1. *)
Definition toString (f : Fraction) : jsstring :=
  if numerator f =? 0 then
    (if isNegative f && negb (wholeNumber f =? 0)
     then [HYPHEN_MINUS] else [])
    ++ numberToString (wholeNumber f)
  else if wholeNumber f =? 0 then
    sign_prefix f
    ++ numberToString (numerator f) ++ [SOLIDUS]
    ++ numberToString (denominator f)
  else
    sign_prefix f
    ++ numberToString (wholeNumber f) ++ [SPACE]
    ++ numberToString (numerator f) ++ [SOLIDUS]
    ++ numberToString (denominator f).

End FractionValue.

(* ================================================================== *)
(** * The fraction editor directive *)
(* ================================================================== *)

(** The injected service.  The directive calls three of its operations:
    [fromDict], [fromRawInputString], which returns a fraction or throws
    an error carrying a message, and the fractions' [toString]. *)
Class FractionObjectFactory : Type := {
  fromDict : FractionDict -> Fraction;
  fromRawInputString : jsstring -> Result Fraction;
  Fraction_toString : Fraction -> jsstring
}.

(** The service of the specification. *)
#[export] Instance SpecFractionObjectFactory : FractionObjectFactory := {
  fromDict := FractionValue.fromStructured;
  fromRawInputString := FractionValue.parse;
  Fraction_toString := FractionValue.toString
}.

Module FractionEditor.

(** What [ctrl.value] can hold: [null], the structured record the parent
    scope bound, or a fraction stored by the watch callback. *)
Inductive bound_value : Type :=
| Null
| DictObject (d : FractionDict)
| FractionObject (f : Fraction).

(** The record [fromDict] sees when it is handed [ctrl.value]: a fraction
    object has all four fields. *)
Definition as_dict (v : bound_value) : option FractionDict :=
  match v with
  | Null => None
  | DictObject d => Some d
  | FractionObject f =>
      Some (mkFractionDict (Some (isNegative f)) (Some (wholeNumber f))
                           (Some (numerator f)) (Some (denominator f)))
  end.

(** The controller's mutable variables: the bound [ctrl.value], the label
    [ctrl.localValue.label] and the closure variable [errorMessage]. *)
Record Controller : Type := mkController {
  value : bound_value;
  label : jsstring;
  errorMessage : jsstring
}.

(** Calls made on the injected service. *)
Inductive call : Type :=
| CallFromDict (d : FractionDict)
| CallFromRawInputString (s : jsstring)
| CallToString (f : Fraction).

Record World : Type := mkWorld {
  ctrl : Controller;
  calls : list call
}.

(** The values a [throw] can carry, told apart by what reading their
    [message] property does: an error object of the service, whose message
    is a string; [null] and [undefined], on which the read itself throws;
    and the [TypeError] the engine raises for such a read, an error object
    with the engine's text.  Thrown values whose [message] is not a string
    (a thrown primitive, an object without the property) are not
    modelled. *)
Inductive thrown : Type :=
| ErrorObject (e : ParseError)
| NullValue
| UndefinedValue
| TypeError (text : jsstring).

(** What a call can do: return a value or throw one. *)
Inductive Completion (A : Type) : Type :=
| Normal (a : A)
| Abrupt (v : thrown).

Arguments Normal {A} a.
Arguments Abrupt {A} v.

(** The typed service returns or throws an error object. *)
Definition completion_of {A : Type} (r : Result A) : Completion A :=
  match r with
  | Ok a => Normal a
  | Err e => Abrupt (ErrorObject e)
  end.

(** A statement either completes or throws; both leave a world behind. *)
Inductive Outcome (A : Type) : Type :=
| Returned (a : A) (w : World)
| Thrown (v : thrown) (w : World).

Arguments Returned {A} a w.
Arguments Thrown {A} v w.

Definition Action (A : Type) : Type := World -> Outcome A.

Definition ret {A : Type} (a : A) : Action A := fun w => Returned a w.

Definition bind {A B : Type} (m : Action A) (k : A -> Action B) : Action B :=
  fun w =>
    match m w with
    | Returned a w' => k a w'
    | Thrown e w' => Thrown e w'
    end.

(** [try { body } catch (e) { handler e }]: the handler receives whatever
    the body threw, and what the handler throws escapes. *)
Definition try_catch {A : Type} (body : Action A)
    (handler : thrown -> Action A) : Action A :=
  fun w =>
    match body w with
    | Returned a w' => Returned a w'
    | Thrown v w' => handler v w'
    end.

Declare Scope action_scope.
Delimit Scope action_scope with action.
Notation "x <- m ;; k" := (bind m (fun x => k))
  (at level 61, m at next level, right associativity) : action_scope.
Notation "m ;; k" := (bind m (fun _ => k))
  (at level 61, right associativity) : action_scope.
Open Scope action_scope.

Definition world_of {A : Type} (o : Outcome A) : World :=
  match o with
  | Returned _ w => w
  | Thrown _ w => w
  end.

Definition get_value : Action bound_value :=
  fun w => Returned (value (ctrl w)) w.

Definition get_errorMessage : Action jsstring :=
  fun w => Returned (errorMessage (ctrl w)) w.

Definition set_value (v : bound_value) : Action unit :=
  fun w =>
    Returned tt
      (mkWorld (mkController v (label (ctrl w)) (errorMessage (ctrl w)))
               (calls w)).

Definition set_label (l : jsstring) : Action unit :=
  fun w =>
    Returned tt
      (mkWorld (mkController (value (ctrl w)) l (errorMessage (ctrl w)))
               (calls w)).

Definition set_errorMessage (m : jsstring) : Action unit :=
  fun w =>
    Returned tt
      (mkWorld (mkController (value (ctrl w)) (label (ctrl w)) m)
               (calls w)).

Definition record_call (c : call) (w : World) : World :=
  mkWorld (ctrl w) (calls w ++ [c]).

(** The text of the engine's [TypeError] for a property read on [null] or
    [undefined] (the wording is the engine's own). *)
Definition CANNOT_READ_MESSAGE_OF_NULL : jsstring :=
  js "Cannot read properties of null (reading 'message')".

Definition CANNOT_READ_MESSAGE_OF_UNDEFINED : jsstring :=
  js "Cannot read properties of undefined (reading 'message')".

(** [v.message] *)
Definition read_message (v : thrown) : Action jsstring :=
  fun w =>
    match v with
    | ErrorObject e => Returned (message e) w
    | TypeError text => Returned text w
    | NullValue => Thrown (TypeError CANNOT_READ_MESSAGE_OF_NULL) w
    | UndefinedValue => Thrown (TypeError CANNOT_READ_MESSAGE_OF_UNDEFINED) w
    end.

Definition nullish (v : thrown) : bool :=
  match v with
  | NullValue | UndefinedValue => true
  | ErrorObject _ | TypeError _ => false
  end.

(** A call of [fromRawInputString] on a service that may throw any of the
    values above. *)
Definition call_parser (parser : jsstring -> Completion Fraction)
    (s : jsstring) : Action Fraction :=
  fun w =>
    let w' := record_call (CallFromRawInputString s) w in
    match parser s with
    | Normal f => Returned f w'
    | Abrupt v => Thrown v w'
    end.

(** The listener registered on ['$ctrl.localValue.label'], for any
    [fromRawInputString]: inside the [try], the parse and the assignment to
    [ctrl.value] when the new label fails the pattern's test, then the
    reset of [errorMessage] on either branch; in the [catch], the
    [message] of whatever was thrown is read and stored. *)
Definition watch_listener_on (parser : jsstring -> Completion Fraction)
    (newValue : jsstring) : Action unit :=
  try_catch
    ((if negb (RegExp.test INTERMEDIATE_REGEX newValue)
      then
        f <- call_parser parser newValue ;;
        set_value (FractionObject f)
      else ret tt) ;;
     set_errorMessage [])
    (fun parsingError =>
       m <- read_message parsingError ;;
       set_errorMessage m).

(** The listener reaches the parser on [s] and the parser throws [null]
    or [undefined]. *)
Definition throws_nullish (parser : jsstring -> Completion Fraction)
    (s : jsstring) : bool :=
  negb (RegExp.test INTERMEDIATE_REGEX s)
  && match parser s with
     | Normal _ => false
     | Abrupt v => nullish v
     end.

Section Directive.

Context {F : FractionObjectFactory}.

Definition call_fromDict (d : FractionDict) : Action Fraction :=
  fun w => Returned (fromDict d) (record_call (CallFromDict d) w).

Definition call_toString (f : Fraction) : Action jsstring :=
  fun w => Returned (Fraction_toString f) (record_call (CallToString f) w).

(** [fromRawInputString] of the injected service, as a call that returns
    or throws. *)
Definition typed_parser : jsstring -> Completion Fraction :=
  fun s => completion_of (fromRawInputString s).

Definition call_fromRawInputString (s : jsstring) : Action Fraction :=
  call_parser typed_parser s.

(** The controller body up to the registration of the watch:
    [errorMessage] starts empty, the label is ["0"] unless [ctrl.value] is
    not [null], in which case it is the text of [fromDict(ctrl.value)]. *)
Definition controller : Action unit :=
  set_errorMessage [] ;;
  v <- get_value ;;
  fractionString <-
    match as_dict v with
    | Some d =>
        defaultFraction <- call_fromDict d ;;
        call_toString defaultFraction
    | None => ret (js "0")
    end ;;
  set_label fractionString.

(** The listener on the injected service, whose errors carry a message. *)
Definition watch_listener (newValue : jsstring) : Action unit :=
  watch_listener_on typed_parser newValue.

Definition getWarningText : Action jsstring := get_errorMessage.

End Directive.

End FractionEditor.

(* ================================================================== *)
(** * Concrete inputs *)
(* ================================================================== *)

Module Examples.

Import FractionEditor.

Definition one_half : Fraction := mkFraction false 0 1 2.

(** A controller holding 1/2 whose last edit, ["1/0"], was rejected. *)
Definition rejected_world : World :=
  mkWorld
    (mkController (FractionObject one_half) (js "1/0")
       (FractionValue.FRACTION_PARSING_ERRORS InvalidDenominator))
    [CallFromRawInputString (js "1/0")].

(** A controller about to be constructed on an unbound ([null]) value. *)
Definition null_world : World :=
  mkWorld (mkController Null [] []) [].

(** A structured record whose denominator is zero. *)
Definition zero_denominator_dict : FractionDict :=
  mkFractionDict None None (Some 1%Z) (Some 0%Z).

(** A fraction whose numerator is one above the safe-integer boundary. *)
Definition big_numerator : Fraction :=
  mkFraction false 0 (FractionValue.MAX_SAFE_INTEGER + 1) 1.

Definition minus_three_and_a_half : Fraction := mkFraction true 3 1 2.

(** A [fromRawInputString] that throws [null] whatever it is given. *)
Definition throws_null : jsstring -> Completion Fraction :=
  fun _ => Abrupt NullValue.

End Examples.

(* ================================================================== *)
(** * The watch at work: digests and edit sessions *)
(* ================================================================== *)

Module EditSession.

Import FractionEditor.

(** The intermediate inputs once more, by counting: nothing but
    whitespace and ['-'], and at most one ['-']. *)
Definition blank_or_minus (c : char16) : bool :=
  isWhiteSpace c || isChar HYPHEN_MINUS c.

Definition count_minus (s : jsstring) : nat :=
  count_occ N.eq_dec s HYPHEN_MINUS.

Definition intermediate_by_count (s : jsstring) : bool :=
  forallb blank_or_minus s && (count_minus s <=? 1)%nat.

Definition get_label : Action jsstring :=
  fun w => Returned (label (ctrl w)) w.

(** [a === b] on strings. *)
Definition same_label (a b : jsstring) : bool :=
  if list_eq_dec N.eq_dec a b then true else false.

(** The digest's test [value !== last]; before its first check the watch
    holds a marker that differs from every label. *)
Definition changed (last : option jsstring) (l : jsstring) : bool :=
  match last with
  | None => true
  | Some seen => negb (same_label seen l)
  end.

(** The labels of a session on which the listener runs: those that differ
    from the label the watch saw last. *)
Fixpoint fired_labels (last : option jsstring) (labels : list jsstring)
    : list jsstring :=
  match labels with
  | [] => []
  | l :: rest =>
      if changed last l then l :: fired_labels (Some l) rest
      else fired_labels last rest
  end.

Section Session.

Context {F : FractionObjectFactory}.

(** One firing of the watch: the watched expression is
    ['$ctrl.localValue.label'], so the listener receives the label the
    controller holds at that moment. *)
Definition digest : Action unit :=
  l <- get_label ;; watch_listener l.

(** One check of the watch by the framework's digest.  The watch
    remembers the label it saw at its previous check ([None] before its
    first check, which therefore always fires) and calls the listener only
    when the label now differs from it; the label it has just seen becomes
    the remembered one.  On the injected service the listener always
    returns, so how the digest disposes of a listener's exception does not
    arise. *)
Definition watch_check (last : option jsstring) : Action (option jsstring) :=
  l <- get_label ;;
  if changed last l then digest ;; ret (Some l) else ret last.

(** The view writes a label and a digest follows. *)
Definition edit (last : option jsstring) (l : jsstring)
    : Action (option jsstring) :=
  set_label l ;; watch_check last.

(** A session: the labels the view writes, one after the other, each
    followed by a digest, starting from what the watch remembers. *)
Fixpoint run_edits_from (last : option jsstring) (labels : list jsstring)
    : Action (option jsstring) :=
  match labels with
  | [] => ret last
  | l :: rest => last' <- edit last l ;; run_edits_from last' rest
  end.

(** A session on a watch that has not yet been checked. *)
Definition run_edits (labels : list jsstring) : Action unit :=
  run_edits_from None labels ;; ret tt.

(** The controller is constructed, the watch is checked for the first
    time and a session follows. *)
Definition run_session (labels : list jsstring) : Action (option jsstring) :=
  controller ;; last <- watch_check None ;; run_edits_from last labels.

(** The controller is constructed and the watch fires for the first time,
    on the label the controller has just set. *)
Definition first_digest : Action unit :=
  controller ;; digest.

(** What one label contributes, read off the listener's three paths: the
    fraction it stores, if any, and the warning it leaves. *)
Definition parsed_of (l : jsstring) : option Fraction :=
  if RegExp.test INTERMEDIATE_REGEX l then None
  else match fromRawInputString l with
       | Ok f => Some f
       | Err _ => None
       end.

Definition warning_for (l : jsstring) : jsstring :=
  if RegExp.test INTERMEDIATE_REGEX l then []
  else match fromRawInputString l with
       | Ok _ => []
       | Err e => message e
       end.

(** The fraction of the latest label of a session that parsed. *)
Fixpoint last_parsed (labels : list jsstring) : option Fraction :=
  match labels with
  | [] => None
  | l :: rest =>
      match last_parsed rest with
      | Some f => Some f
      | None => parsed_of l
      end
  end.

(** The labels of a session that reach the parser. *)
Definition parser_inputs (labels : list jsstring) : list jsstring :=
  filter (fun l => negb (RegExp.test INTERMEDIATE_REGEX l)) labels.

End Session.

End EditSession.

(* ================================================================== *)
(** * Lemmas: the regular expression engine *)
(* ================================================================== *)

Module RegExpFacts.

Lemma lang_nil_nullable r s : lang r s -> s = [] -> nullable r = true.
Proof.
  induction 1 as [ | p c Hp | r1 r2 s1 s2 H1 IH1 H2 IH2
                 | r1 r2 s H1 IH1 | r1 r2 s H2 IH2
                 | r | r s1 s2 H1 IH1 H2 IH2 ]; intro E; simpl; trivial.
  - discriminate.
  - apply app_eq_nil in E as [E1 E2].
    now rewrite (IH1 E1), (IH2 E2).
  - now rewrite (IH1 E).
  - rewrite (IH2 E). apply orb_true_r.
Qed.

Lemma nullable_lang_nil r : nullable r = true -> lang r [].
Proof.
  induction r as [ | | p | r1 IH1 r2 IH2 | r1 IH1 r2 IH2 | r IH ];
    simpl; intro E; try discriminate.
  - constructor.
  - apply andb_true_iff in E as [E1 E2].
    change (@nil char16) with (@nil char16 ++ []).
    constructor; auto.
  - apply orb_true_iff in E as [E | E].
    + apply lang_alt_l; auto.
    + apply lang_alt_r; auto.
  - constructor.
Qed.

Lemma deriv_sound c r : forall s, lang (deriv c r) s -> lang r (c :: s).
Proof.
  induction r as [ | | p | r1 IH1 r2 IH2 | r1 IH1 r2 IH2 | r IH ];
    simpl; intros s H.
  - inversion H.
  - inversion H.
  - destruct (p c) eqn:Hp; inversion H; subst. now constructor.
  - destruct (nullable r1) eqn:N1.
    + inversion H as [ | | | ? ? ? HL | ? ? ? HR | | ]; subst.
      * inversion HL; subst.
        change (c :: s1 ++ s2) with ((c :: s1) ++ s2).
        constructor; auto.
      * change (c :: s) with ([] ++ c :: s).
        constructor; auto using nullable_lang_nil.
    + inversion H; subst.
      change (c :: s1 ++ s2) with ((c :: s1) ++ s2).
      constructor; auto.
  - inversion H; subst.
    + apply lang_alt_l; auto.
    + apply lang_alt_r; auto.
  - inversion H; subst.
    change (c :: s1 ++ s2) with ((c :: s1) ++ s2).
    apply lang_star_more; auto.
Qed.

Lemma deriv_complete c r w :
  lang r w -> forall s, w = c :: s -> lang (deriv c r) s.
Proof.
  induction 1 as [ | p c0 Hp | r1 r2 s1 s2 H1 IH1 H2 IH2
                 | r1 r2 s0 H1 IH1 | r1 r2 s0 H2 IH2
                 | r | r s1 s2 H1 IH1 H2 IH2 ]; intros s E; simpl.
  - discriminate.
  - injection E as -> <-. rewrite Hp. constructor.
  - destruct s1 as [ | c1 s1' ]; simpl in E.
    + rewrite (lang_nil_nullable H1 eq_refl).
      apply lang_alt_r; auto.
    + injection E as -> <-.
      destruct (nullable r1).
      * apply lang_alt_l. constructor; auto.
      * constructor; auto.
  - apply lang_alt_l; auto.
  - apply lang_alt_r; auto.
  - discriminate.
  - destruct s1 as [ | c1 s1' ]; simpl in E.
    + apply (IH2 _ E).
    + injection E as -> <-. constructor; auto.
Qed.

(** The matcher decides membership in the pattern's language. *)
Lemma matches_lang s : forall r, matches r s = true <-> lang r s.
Proof.
  induction s as [ | c s IH ]; intro r; simpl.
  - split; [ apply nullable_lang_nil | intro H; exact (lang_nil_nullable H eq_refl) ].
  - rewrite IH. split.
    + apply deriv_sound.
    + intro H. exact (deriv_complete H eq_refl).
Qed.

Lemma lang_star_class p s :
  lang (Star (Class p)) s <-> Forall (fun c => p c = true) s.
Proof.
  split.
  - remember (Star (Class p)) as r eqn:Er. intro H.
    induction H as [ | | | | | r0 | r0 s1 s2 H1 _ H2 IH2 ]; try discriminate.
    + constructor.
    + injection Er as ->. inversion H1; subst. simpl.
      constructor; auto.
  - induction 1 as [ | c s Hc _ IH ].
    + constructor.
    + change (c :: s) with ([c] ++ s).
      apply lang_star_more; [ now constructor | exact IH ].
Qed.

Lemma lang_opt_char k s :
  lang (Opt (Class (isChar k))) s <-> s = [] \/ s = [k].
Proof.
  unfold Opt. split.
  - intro H. inversion H as [ | | | ? ? ? HL | ? ? ? HR | | ]; subst.
    + inversion HL as [ | ? ? Hc | | | | | ]; subst.
      right. unfold isChar in Hc. apply N.eqb_eq in Hc. now subst.
    + inversion HR. now left.
  - intros [-> | ->].
    + apply lang_alt_r. constructor.
    + apply lang_alt_l. constructor. unfold isChar. apply N.eqb_refl.
Qed.

(** The directive's pattern accepts exactly the intermediate inputs. *)
Lemma test_INTERMEDIATE_REGEX s :
  RegExp.test INTERMEDIATE_REGEX s = true <-> intermediate_input s.
Proof.
  unfold RegExp.test. rewrite matches_lang.
  unfold INTERMEDIATE_REGEX, intermediate_input. split.
  - intro H. inversion H as [ | | ? ? lead rest HL HR | | | | ]; subst.
    inversion HR as [ | | ? ? sign trail HS HT | | | | ]; subst.
    exists lead, sign, trail. repeat split.
    + now apply lang_star_class.
    + now apply lang_opt_char.
    + now apply lang_star_class.
  - intros (lead & sign & trail & -> & HL & HS & HT).
    constructor; [ now apply lang_star_class | ].
    constructor; [ now apply lang_opt_char | now apply lang_star_class ].
Qed.

Lemma test_INTERMEDIATE_REGEX_false s :
  RegExp.test INTERMEDIATE_REGEX s = false <-> ~ intermediate_input s.
Proof.
  rewrite <- test_INTERMEDIATE_REGEX.
  destruct (RegExp.test INTERMEDIATE_REGEX s); split; intro H;
    try reflexivity; try discriminate.
  now elim H.
Qed.

End RegExpFacts.

(* ================================================================== *)
(** * Lemmas: the watch callback and the controller *)
(* ================================================================== *)

Unset Implicit Arguments.

Module FractionEditorFacts.

Import FractionEditor RegExpFacts Examples.

Lemma app_singleton_neq {A : Type} (l : list A) (x : A) : l ++ [x] <> l.
Proof.
  intro E. apply (f_equal (@List.length A)) in E.
  rewrite length_app in E. simpl in E. lia.
Qed.

Section Watch.

Context {F : FractionObjectFactory}.

(** The three paths through the listener, as equations. *)

Lemma watch_listener_intermediate s w :
  RegExp.test INTERMEDIATE_REGEX s = true ->
  watch_listener s w =
  Returned tt
    (mkWorld (mkController (value (ctrl w)) (label (ctrl w)) []) (calls w)).
Proof.
  intro T. unfold watch_listener, watch_listener_on, try_catch, bind.
  rewrite T. reflexivity.
Qed.

Lemma watch_listener_parsed s w f :
  RegExp.test INTERMEDIATE_REGEX s = false ->
  fromRawInputString s = Ok f ->
  watch_listener s w =
  Returned tt
    (mkWorld (mkController (FractionObject f) (label (ctrl w)) [])
             (calls w ++ [CallFromRawInputString s])).
Proof.
  intros T P.
  unfold watch_listener, watch_listener_on, try_catch, bind.
  unfold call_parser, typed_parser. rewrite T, P. reflexivity.
Qed.

Lemma watch_listener_rejected s w e :
  RegExp.test INTERMEDIATE_REGEX s = false ->
  fromRawInputString s = Err e ->
  watch_listener s w =
  Returned tt
    (mkWorld (mkController (value (ctrl w)) (label (ctrl w)) (message e))
             (calls w ++ [CallFromRawInputString s])).
Proof.
  intros T P.
  unfold watch_listener, watch_listener_on, try_catch, bind.
  unfold call_parser, typed_parser. rewrite T, P. reflexivity.
Qed.

Lemma watch_listener_calls s w :
  calls (world_of (watch_listener s w)) =
  calls w ++ (if RegExp.test INTERMEDIATE_REGEX s then []
              else [CallFromRawInputString s]).
Proof.
  destruct (RegExp.test INTERMEDIATE_REGEX s) eqn:T.
  - rewrite (watch_listener_intermediate s w T). simpl.
    now rewrite app_nil_r.
  - destruct (fromRawInputString s) as [f | e] eqn:P.
    + now rewrite (watch_listener_parsed s w f T P).
    + now rewrite (watch_listener_rejected s w e T P).
Qed.

(** C1 (as amended): on an input matching the intermediate pattern the
    watch callback does not call the parser and leaves [ctrl.value] and the
    label as they were, and it sets the stored error message to the empty
    string: intermediate input never produces an error, and it clears the
    one left by an earlier edit. *)
Theorem watch_intermediate_resets_error s w :
  intermediate_input s ->
  watch_listener s w =
  Returned tt
    (mkWorld (mkController (value (ctrl w)) (label (ctrl w)) []) (calls w)).
Proof.
  intro I. apply watch_listener_intermediate.
  now apply test_INTERMEDIATE_REGEX.
Qed.

(** C2: the watch callback calls [fromRawInputString] on [s], once and as
    its only call, exactly when [s] is not an intermediate input; on an
    intermediate input it calls nothing; and the pattern's test accepts
    exactly the strings made of optional whitespace, an optional single
    ['-'] and optional whitespace. *)
Theorem watch_parses_iff_not_intermediate s w :
  (RegExp.test INTERMEDIATE_REGEX s = true <-> intermediate_input s)
  /\ (calls (world_of (watch_listener s w))
        = calls w ++ [CallFromRawInputString s]
      <-> ~ intermediate_input s)
  /\ (calls (world_of (watch_listener s w)) = calls w
      <-> intermediate_input s).
Proof.
  split; [ apply test_INTERMEDIATE_REGEX | ].
  rewrite watch_listener_calls.
  rewrite <- test_INTERMEDIATE_REGEX_false, <- test_INTERMEDIATE_REGEX.
  destruct (RegExp.test INTERMEDIATE_REGEX s); rewrite ?app_nil_r; split; split;
    intro H; try reflexivity; try discriminate.
  - symmetry in H. elim (app_singleton_neq _ _ H).
  - elim (app_singleton_neq _ _ H).
Qed.

(** C3: when the input is not intermediate and the parser throws, the
    watch callback leaves [ctrl.value] (and the label) untouched and stores
    the message of the thrown error. *)
Theorem watch_rejected_keeps_value s w e :
  ~ intermediate_input s ->
  fromRawInputString s = Err e ->
  watch_listener s w =
  Returned tt
    (mkWorld (mkController (value (ctrl w)) (label (ctrl w)) (message e))
             (calls w ++ [CallFromRawInputString s])).
Proof.
  intros I P. apply watch_listener_rejected; trivial.
  now apply test_INTERMEDIATE_REGEX_false.
Qed.

(** C4: when the input is not intermediate and the parser returns a
    fraction, the watch callback stores that fraction in [ctrl.value],
    whatever was there, and resets the error message to the empty string. *)
Theorem watch_parsed_sets_value s w f :
  ~ intermediate_input s ->
  fromRawInputString s = Ok f ->
  watch_listener s w =
  Returned tt
    (mkWorld (mkController (FractionObject f) (label (ctrl w)) [])
             (calls w ++ [CallFromRawInputString s])).
Proof.
  intros I P. apply watch_listener_parsed; trivial.
  now apply test_INTERMEDIATE_REGEX_false.
Qed.

(** C5: after the watch callback has run on a non-intermediate input whose
    parse throws, [getWarningText()] returns the thrown error's message,
    unmodified, and changes nothing. *)
Theorem getWarningText_after_rejected s w e :
  ~ intermediate_input s ->
  fromRawInputString s = Err e ->
  exists w',
    watch_listener s w = Returned tt w'
    /\ getWarningText w' = Returned (message e) w'.
Proof.
  intros I P. eexists. split.
  - apply watch_listener_rejected; [ | exact P ].
    now apply test_INTERMEDIATE_REGEX_false.
  - reflexivity.
Qed.

(** On the injected service, whose errors carry a message, the listener
    always returns. *)
Lemma watch_listener_returns s w :
  exists w', watch_listener s w = Returned tt w'.
Proof.
  destruct (RegExp.test INTERMEDIATE_REGEX s) eqn:T.
  - eexists. apply (watch_listener_intermediate s w T).
  - destruct (fromRawInputString s) as [f | e] eqn:P.
    + eexists. apply (watch_listener_parsed s w f T P).
    + eexists. apply (watch_listener_rejected s w e T P).
Qed.

(** C10: constructing the controller on a [null] bound value calls
    nothing on the service, shows the label ["0"] and starts with the empty
    error message; on a non-null bound value it calls [fromDict] on that
    value and the label is [toString(fromDict(ctrl.value))]. *)
Theorem controller_initial_label w :
  (value (ctrl w) = Null ->
   controller w =
   Returned tt (mkWorld (mkController Null (js "0") []) (calls w)))
  /\ (value (ctrl w) <> Null ->
      exists d,
        as_dict (value (ctrl w)) = Some d
        /\ controller w =
           Returned tt
             (mkWorld
                (mkController (value (ctrl w))
                              (Fraction_toString (fromDict d)) [])
                (calls w ++ [CallFromDict d; CallToString (fromDict d)]))).
Proof.
  split.
  - intro E. unfold controller, bind, set_errorMessage, get_value. simpl.
    rewrite E. reflexivity.
  - intro N.
    assert (D : exists d, as_dict (value (ctrl w)) = Some d).
    { destruct (value (ctrl w)); [ now elim N | eexists; reflexivity .. ]. }
    destruct D as [d E]. exists d. split; [ exact E | ].
    unfold controller, bind, set_errorMessage, get_value. simpl.
    rewrite E. unfold call_fromDict, call_toString, set_label, record_call.
    simpl. now rewrite <- app_assoc.
Qed.

End Watch.

(** ** The listener on a service that may throw anything *)

Lemma watch_listener_on_intermediate parser s w :
  RegExp.test INTERMEDIATE_REGEX s = true ->
  watch_listener_on parser s w =
  Returned tt
    (mkWorld (mkController (value (ctrl w)) (label (ctrl w)) []) (calls w)).
Proof.
  intro T. unfold watch_listener_on, try_catch, bind. rewrite T. reflexivity.
Qed.

Lemma watch_listener_on_normal parser s w f :
  RegExp.test INTERMEDIATE_REGEX s = false ->
  parser s = Normal f ->
  watch_listener_on parser s w =
  Returned tt
    (mkWorld (mkController (FractionObject f) (label (ctrl w)) [])
             (calls w ++ [CallFromRawInputString s])).
Proof.
  intros T P. unfold watch_listener_on, try_catch, bind, call_parser.
  rewrite T, P. reflexivity.
Qed.

(** When the parser throws, the outcome is that of the handler. *)
Lemma watch_listener_on_abrupt parser s w v :
  RegExp.test INTERMEDIATE_REGEX s = false ->
  parser s = Abrupt v ->
  watch_listener_on parser s w =
  bind (read_message v) set_errorMessage
       (record_call (CallFromRawInputString s) w).
Proof.
  intros T P. unfold watch_listener_on, try_catch, bind, call_parser.
  rewrite T, P. reflexivity.
Qed.

(** C9 (as amended): the watch callback catches whatever
    [fromRawInputString] throws and reads its [message].  It terminates
    normally on every input string on which the parser is not called,
    returns, or throws an error object, whose message it stores; exactly
    when the parser throws [null] or [undefined] the handler's read of
    [message] throws a [TypeError], which leaves the callback, with
    [ctrl.value], the label and the stored message as they were. *)
Theorem watch_listener_on_returns_unless_nullish parser s w :
  ((exists w', watch_listener_on parser s w = Returned tt w')
   <-> throws_nullish parser s = false)
  /\ (forall e,
        RegExp.test INTERMEDIATE_REGEX s = false ->
        parser s = Abrupt (ErrorObject e) ->
        watch_listener_on parser s w =
        Returned tt
          (mkWorld
             (mkController (value (ctrl w)) (label (ctrl w)) (message e))
             (calls w ++ [CallFromRawInputString s])))
  /\ (throws_nullish parser s = true ->
      exists text,
        watch_listener_on parser s w =
        Thrown (TypeError text)
          (mkWorld (ctrl w) (calls w ++ [CallFromRawInputString s]))).
Proof.
  unfold throws_nullish.
  destruct (RegExp.test INTERMEDIATE_REGEX s) eqn:T; simpl.
  - rewrite (watch_listener_on_intermediate parser s w T).
    repeat split; eauto; discriminate.
  - destruct (parser s) as [f | v] eqn:P.
    + rewrite (watch_listener_on_normal parser s w f T P).
      repeat split; eauto; discriminate.
    + rewrite (watch_listener_on_abrupt parser s w v T P).
      destruct v as [e | | | text]; simpl; unfold bind, read_message.
      * split; [ split | split ].
        -- reflexivity.
        -- intros _. eexists. reflexivity.
        -- intros e' _ E. injection E as <-. reflexivity.
        -- discriminate.
      * split; [ split | split ].
        -- intros [w' E]. discriminate E.
        -- discriminate.
        -- intros e' _ E. discriminate E.
        -- intros _. eexists. reflexivity.
      * split; [ split | split ].
        -- intros [w' E]. discriminate E.
        -- discriminate.
        -- intros e' _ E. discriminate E.
        -- intros _. eexists. reflexivity.
      * split; [ split | split ].
        -- reflexivity.
        -- intros _. eexists. reflexivity.
        -- intros e' _ E. discriminate E.
        -- discriminate.
Qed.


(** ** Concrete runs *)

(** C1, as stated, fails: the controller holds the message of the rejected
    edit ["1/0"]; the intermediate input ["-"] then empties it. *)
Lemma watch_intermediate_clears_error :
  intermediate_input (js "-")
  /\ errorMessage (ctrl rejected_world) <> []
  /\ errorMessage
       (ctrl (world_of
                (watch_listener (F := SpecFractionObjectFactory)
                   (js "-") rejected_world)))
     <> errorMessage (ctrl rejected_world).
Proof.
  split; [ apply test_INTERMEDIATE_REGEX; reflexivity | ].
  split; intro E; vm_compute in E; discriminate.
Qed.

Lemma watch_intermediate_resets_error_witness :
  intermediate_input (js " - ")
  /\ watch_listener (F := SpecFractionObjectFactory) (js " - ") rejected_world
     = Returned tt
         (mkWorld (mkController (FractionObject one_half) (js "1/0") [])
                  [CallFromRawInputString (js "1/0")]).
Proof.
  assert (I : intermediate_input (js " - ")).
  { apply test_INTERMEDIATE_REGEX. reflexivity. }
  split; [ exact I | ].
  exact (watch_intermediate_resets_error
           (F := SpecFractionObjectFactory) (js " - ") rejected_world I).
Defined.

Lemma watch_rejected_keeps_value_witness :
  watch_listener (F := SpecFractionObjectFactory) (js "1/0") rejected_world
  = Returned tt
      (mkWorld
         (mkController (FractionObject one_half) (js "1/0")
            (FractionValue.FRACTION_PARSING_ERRORS InvalidDenominator))
         [CallFromRawInputString (js "1/0");
          CallFromRawInputString (js "1/0")]).
Proof.
  apply (watch_rejected_keeps_value
           (F := SpecFractionObjectFactory) (js "1/0") rejected_world
           (FractionValue.parse_error InvalidDenominator)).
  - apply test_INTERMEDIATE_REGEX_false. reflexivity.
  - reflexivity.
Defined.

Lemma watch_parsed_sets_value_witness :
  watch_listener (F := SpecFractionObjectFactory) (js "-3 1/2") rejected_world
  = Returned tt
      (mkWorld
         (mkController (FractionObject minus_three_and_a_half) (js "1/0") [])
         [CallFromRawInputString (js "1/0");
          CallFromRawInputString (js "-3 1/2")]).
Proof.
  apply (watch_parsed_sets_value
           (F := SpecFractionObjectFactory) (js "-3 1/2") rejected_world
           minus_three_and_a_half).
  - apply test_INTERMEDIATE_REGEX_false. reflexivity.
  - reflexivity.
Defined.

Lemma getWarningText_after_rejected_witness :
  exists w',
    watch_listener (F := SpecFractionObjectFactory) (js "abc") null_world
    = Returned tt w'
    /\ getWarningText w'
       = Returned (FractionValue.FRACTION_PARSING_ERRORS InvalidFormat) w'.
Proof.
  apply (getWarningText_after_rejected
           (F := SpecFractionObjectFactory) (js "abc") null_world
           (FractionValue.parse_error InvalidFormat)).
  - apply test_INTERMEDIATE_REGEX_false. reflexivity.
  - reflexivity.
Defined.

Lemma controller_initial_label_witness :
  controller (F := SpecFractionObjectFactory) null_world
  = Returned tt (mkWorld (mkController Null (js "0") []) [])
  /\ label
       (ctrl (world_of
                (controller (F := SpecFractionObjectFactory) rejected_world)))
     = js "1/2".
Proof.
  split.
  - apply (proj1 (controller_initial_label
                    (F := SpecFractionObjectFactory) null_world)).
    reflexivity.
  - destruct (proj2 (controller_initial_label
                       (F := SpecFractionObjectFactory) rejected_world))
      as (d & E & R).
    + discriminate.
    + rewrite R. injection E as <-. reflexivity.
Defined.

(** C9, as stated, fails: when [fromRawInputString] throws [null], the
    handler's read of [message] throws a [TypeError] and the callback does
    not return. *)
Lemma watch_listener_propagates_on_null :
  watch_listener_on throws_null (js "1") null_world
  = Thrown (TypeError CANNOT_READ_MESSAGE_OF_NULL)
      (mkWorld (mkController Null [] []) [CallFromRawInputString (js "1")])
  /\ ~ (exists w',
          watch_listener_on throws_null (js "1") null_world
          = Returned tt w').
Proof.
  split; [ reflexivity | ].
  intros [w' E]. discriminate E.
Qed.

Lemma watch_listener_on_returns_unless_nullish_witness :
  (exists w',
     watch_listener_on (typed_parser (F := SpecFractionObjectFactory))
       (js "1/0") rejected_world
     = Returned tt w')
  /\ (exists text,
        watch_listener_on (fun _ => Abrupt UndefinedValue) (js "7") null_world
        = Thrown (TypeError text)
            (mkWorld (ctrl null_world)
                     (calls null_world ++ [CallFromRawInputString (js "7")]))).
Proof.
  split.
  - apply (proj1 (watch_listener_on_returns_unless_nullish
                    (typed_parser (F := SpecFractionObjectFactory))
                    (js "1/0") rejected_world)).
    reflexivity.
  - apply (proj2 (proj2 (watch_listener_on_returns_unless_nullish
                           (fun _ => Abrupt UndefinedValue)
                           (js "7") null_world))).
    reflexivity.
Defined.

End FractionEditorFacts.

(* ================================================================== *)
(** * Lemmas: the fraction value object *)
(* ================================================================== *)

Module FractionValueFacts.

Import FractionValue Examples.
Open Scope Z_scope.

(** ** Character classes *)

Lemma digit_not_whitespace c : isDigit c = true -> isWhiteSpace c = false.
Proof.
  unfold isDigit, isWhiteSpace. intro H.
  apply andb_true_iff in H as [H1 H2]. apply N.leb_le in H1, H2.
  simpl existsb.
  repeat match goal with
         | |- context [N.eqb c ?k] =>
             replace (N.eqb c k) with false
               by (symmetry; apply N.eqb_neq; lia)
         end.
  replace (0x2000 <=? c)%N with false by (symmetry; apply N.leb_gt; lia).
  reflexivity.
Qed.

Lemma digit_not_char k c :
  isDigit k = false -> isDigit c = true -> isChar k c = false.
Proof.
  unfold isChar. intros Hk Hc. apply N.eqb_neq. intros ->. congruence.
Qed.

(** ** Digit groups *)

Lemma is_digits_all ds : is_digits ds = true -> forallb isDigit ds = true.
Proof. destruct ds; [ discriminate | trivial ]. Qed.

Lemma is_digits_head ds :
  is_digits ds = true -> exists c t, ds = c :: t /\ isDigit c = true.
Proof.
  destruct ds as [ | c t ]; [ discriminate | ]. simpl. intro H.
  apply andb_true_iff in H as [H _]. eauto.
Qed.

Lemma is_digits_last ds :
  is_digits ds = true -> exists t c, ds = t ++ [c] /\ isDigit c = true.
Proof.
  intro H. destruct (exists_last (l := ds)) as (t & c & E).
  - intros ->. discriminate.
  - exists t, c. split; [ exact E | ].
    apply is_digits_all in H. rewrite forallb_forall in H.
    apply H. rewrite E. apply in_or_app. right. now left.
Qed.

Lemma units_of_uint_all_digits d : forallb isDigit (units_of_uint d) = true.
Proof. induction d; simpl; trivial. Qed.

Lemma is_digits_units_of_uint d :
  d <> Nil -> is_digits (units_of_uint d) = true.
Proof.
  intro H. pose proof (units_of_uint_all_digits d) as A.
  destruct d; [ now elim H | .. ]; exact A.
Qed.

Lemma uint_of_units_of_uint d : uint_of_units (units_of_uint d) = Some d.
Proof.
  induction d; simpl; [ reflexivity | .. ]; rewrite IHd; reflexivity.
Qed.

Lemma N_to_uint_nonnil n : N.to_uint n <> Nil.
Proof.
  destruct n as [ | p ]; simpl.
  - discriminate.
  - apply DecimalPos.Unsigned.to_uint_nonnil.
Qed.

Lemma numberToString_nonneg z :
  0 <= z -> numberToString z = units_of_uint (N.to_uint (Z.to_N z)).
Proof. destruct z; trivial. lia. Qed.

Lemma is_digits_numberToString z :
  0 <= z -> is_digits (numberToString z) = true.
Proof.
  intro H. rewrite (numberToString_nonneg z H).
  apply is_digits_units_of_uint, N_to_uint_nonnil.
Qed.

(** Reading back a printed non-negative integer gives the integer. *)
Lemma literal_value_numberToString z :
  0 <= z -> literal_value (numberToString z) = Some z.
Proof.
  intro H. pose proof (is_digits_numberToString z H) as G.
  rewrite (numberToString_nonneg z H) in *.
  unfold literal_value.
  destruct (units_of_uint (N.to_uint (Z.to_N z))) eqn:E; [ discriminate | ].
  rewrite <- E, uint_of_units_of_uint. simpl.
  now rewrite DecimalN.Unsigned.of_to, Z2N.id.
Qed.

Lemma literal_value_nonneg s v : literal_value s = Some v -> 0 <= v.
Proof.
  unfold literal_value. destruct s; [ discriminate | ].
  destruct (uint_of_units (c :: s)); simpl; [ | discriminate ].
  intros [= <-]. apply N2Z.is_nonneg.
Qed.

(** ** Scanning *)

Lemma span_digits_stop ds c rest :
  forallb isDigit ds = true -> isDigit c = false ->
  span isDigit (ds ++ c :: rest) = (ds, c :: rest).
Proof.
  intros H Hc. induction ds as [ | a ds IH ]; simpl in *.
  - now rewrite Hc.
  - apply andb_true_iff in H as [Ha H]. rewrite Ha, (IH H). reflexivity.
Qed.

Lemma span_digits_all ds :
  forallb isDigit ds = true -> span isDigit ds = (ds, []).
Proof.
  induction ds as [ | a ds IH ]; simpl; trivial.
  intro H. apply andb_true_iff in H as [Ha H]. now rewrite Ha, (IH H).
Qed.

Lemma drop_while_stop p c t : p c = false -> drop_while p (c :: t) = c :: t.
Proof. intro H. simpl. now rewrite H. Qed.

Lemma trim_fixed s :
  drop_while isWhiteSpace s = s ->
  drop_while isWhiteSpace (List.rev s) = List.rev s ->
  trim s = s.
Proof.
  intros H1 H2. unfold trim. rewrite H1, H2. apply rev_involutive.
Qed.

Lemma drop_while_rev_digits pre ds :
  is_digits ds = true ->
  drop_while isWhiteSpace (List.rev (pre ++ ds)) = List.rev (pre ++ ds).
Proof.
  intro H. destruct (is_digits_last ds H) as (t & c & -> & Hc).
  rewrite rev_app_distr, rev_app_distr. simpl.
  now rewrite (digit_not_whitespace c Hc).
Qed.

(** A printed sign followed by text that begins and ends with a digit is
    left alone by [trim], and [split_sign] takes the sign off again. *)
Lemma trim_signed neg pre ds c t :
  pre ++ ds = c :: t -> isDigit c = true -> is_digits ds = true ->
  trim ((if neg : bool then [HYPHEN_MINUS] else []) ++ pre ++ ds)
  = (if neg then [HYPHEN_MINUS] else []) ++ pre ++ ds.
Proof.
  intros E Hc Hd. apply trim_fixed.
  - rewrite E. destruct neg; simpl.
    + reflexivity.
    + now rewrite (digit_not_whitespace c Hc).
  - rewrite app_assoc. now apply drop_while_rev_digits.
Qed.

Lemma split_sign_signed neg c t :
  isDigit c = true ->
  split_sign ((if neg : bool then [HYPHEN_MINUS] else []) ++ c :: t)
  = (neg, c :: t).
Proof.
  intro Hc. destruct neg; simpl.
  - reflexivity.
  - now rewrite (digit_not_char HYPHEN_MINUS c eq_refl Hc).
Qed.

(** ** The three forms *)

Lemma match_shape_integer w :
  is_digits w = true -> match_shape w = Some (IntegerOnly w).
Proof.
  intro Hw. unfold match_shape.
  now rewrite (span_digits_all w (is_digits_all w Hw)), Hw.
Qed.

Lemma match_shape_simple n d :
  is_digits n = true -> is_digits d = true ->
  match_shape (n ++ SOLIDUS :: d) = Some (SimpleFraction n d).
Proof.
  intros Hn Hd. unfold match_shape.
  rewrite (span_digits_stop n SOLIDUS d (is_digits_all n Hn) eq_refl), Hn.
  change (isChar SOLIDUS SOLIDUS) with true. cbv iota. now rewrite Hd.
Qed.

Lemma split_fraction_groups n d :
  is_digits n = true -> is_digits d = true ->
  split_fraction (n ++ SOLIDUS :: d) = Some (n, d).
Proof.
  intros Hn Hd. unfold split_fraction.
  rewrite (span_digits_stop n SOLIDUS d (is_digits_all n Hn) eq_refl).
  change (isChar SOLIDUS SOLIDUS) with true. now rewrite Hn, Hd.
Qed.

Lemma match_shape_mixed w n d :
  is_digits w = true -> is_digits n = true -> is_digits d = true ->
  match_shape (w ++ SPACE :: n ++ SOLIDUS :: d) = Some (MixedNumber w n d).
Proof.
  intros Hw Hn Hd. unfold match_shape.
  rewrite (span_digits_stop w SPACE _ (is_digits_all w Hw) eq_refl), Hw.
  change (isChar SOLIDUS SPACE) with false.
  change (isChar SPACE SPACE) with true. cbv iota.
  destruct (is_digits_head n Hn) as (c & t & En & Hc).
  assert (D : drop_while (isChar SPACE) (n ++ SOLIDUS :: d)
              = n ++ SOLIDUS :: d).
  { rewrite En. simpl. now rewrite (digit_not_char SPACE c eq_refl Hc). }
  now rewrite D, (split_fraction_groups n d Hn Hd).
Qed.

(** ** Parsing printed text *)

Lemma parse_upto_signed bound neg pre ds c t :
  pre ++ ds = c :: t -> isDigit c = true -> is_digits ds = true ->
  parse_upto bound ((if neg : bool then [HYPHEN_MINUS] else []) ++ pre ++ ds)
  = parse_body bound neg (pre ++ ds).
Proof.
  intros E Hc Hd. unfold parse_upto.
  rewrite (trim_signed neg pre ds c t E Hc Hd), E.
  now rewrite (split_sign_signed neg c t Hc).
Qed.

Lemma in_range bound w n d :
  w <= bound -> n <= bound -> d <= bound ->
  (bound <? w) || (bound <? n) || (bound <? d) = false.
Proof.
  intros Hw Hn Hd.
  rewrite !orb_false_iff. repeat split; apply Z.ltb_ge; assumption.
Qed.

Lemma parse_upto_simple_cases bound neg n d vn vd :
  is_digits n = true -> is_digits d = true ->
  literal_value n = Some vn -> literal_value d = Some vd ->
  parse_upto bound
    ((if neg : bool then [HYPHEN_MINUS] else []) ++ n ++ SOLIDUS :: d)
  = if vd =? 0 then Err (parse_error InvalidDenominator)
    else if (bound <? 0) || (bound <? vn) || (bound <? vd)
         then Err (parse_error NumberTooLarge)
         else Ok (mkFraction neg 0 vn vd).
Proof.
  intros Hn Hd Vn Vd.
  destruct (is_digits_head n Hn) as (c & t & En & Hc).
  replace (n ++ SOLIDUS :: d) with ((n ++ [SOLIDUS]) ++ d)
    by (now rewrite <- app_assoc).
  rewrite (parse_upto_signed bound neg (n ++ [SOLIDUS]) d c
             (t ++ [SOLIDUS] ++ d)); trivial.
  - rewrite <- app_assoc. simpl. unfold parse_body.
    rewrite (match_shape_simple n d Hn Hd). simpl. now rewrite Vn, Vd.
  - rewrite En, <- app_assoc. reflexivity.
Qed.

Lemma parse_upto_simple bound neg n d vn vd :
  is_digits n = true -> is_digits d = true ->
  literal_value n = Some vn -> literal_value d = Some vd ->
  vd <> 0 -> 0 <= bound -> vn <= bound -> vd <= bound ->
  parse_upto bound
    ((if neg : bool then [HYPHEN_MINUS] else []) ++ n ++ SOLIDUS :: d)
  = Ok (mkFraction neg 0 vn vd).
Proof.
  intros Hn Hd Vn Vd Nz B0 Bn Bd.
  rewrite (parse_upto_simple_cases bound neg n d vn vd Hn Hd Vn Vd).
  apply Z.eqb_neq in Nz. rewrite Nz.
  now rewrite (in_range bound 0 vn vd B0 Bn Bd).
Qed.

Lemma parse_upto_mixed bound neg w n d vw vn vd :
  is_digits w = true -> is_digits n = true -> is_digits d = true ->
  literal_value w = Some vw -> literal_value n = Some vn ->
  literal_value d = Some vd ->
  vd <> 0 -> vw <= bound -> vn <= bound -> vd <= bound ->
  parse_upto bound
    ((if neg : bool then [HYPHEN_MINUS] else [])
     ++ w ++ SPACE :: n ++ SOLIDUS :: d)
  = Ok (mkFraction neg vw vn vd).
Proof.
  intros Hw Hn Hd Vw Vn Vd Nz Bw Bn Bd.
  destruct (is_digits_head w Hw) as (c & t & Ew & Hc).
  replace (w ++ SPACE :: n ++ SOLIDUS :: d)
    with ((w ++ SPACE :: n ++ [SOLIDUS]) ++ d)
    by (rewrite <- app_assoc; simpl; now rewrite <- app_assoc).
  rewrite (parse_upto_signed bound neg (w ++ SPACE :: n ++ [SOLIDUS]) d c
             (t ++ SPACE :: n ++ [SOLIDUS] ++ d)); trivial.
  - replace ((w ++ SPACE :: n ++ [SOLIDUS]) ++ d)
      with (w ++ SPACE :: n ++ SOLIDUS :: d)
      by (rewrite <- app_assoc; simpl; now rewrite <- app_assoc).
    unfold parse_body.
    rewrite (match_shape_mixed w n d Hw Hn Hd). simpl. rewrite Vw, Vn, Vd.
    apply Z.eqb_neq in Nz. rewrite Nz.
    now rewrite (in_range bound vw vn vd Bw Bn Bd).
  - rewrite Ew, <- !app_assoc. simpl. now rewrite <- app_assoc.
Qed.

(** Printing then parsing, for any boundary the fields stay within. *)
Lemma parse_upto_toString bound f :
  valid_fraction f -> numerator f <> 0 ->
  wholeNumber f <= bound -> numerator f <= bound -> denominator f <= bound ->
  parse_upto bound (toString f) = Ok f.
Proof.
  intros (Vw & Vn & Vd) Nz Bw Bn Bd.
  destruct f as [neg w n d]. simpl in *.
  unfold toString, sign_prefix. simpl.
  apply Z.eqb_neq in Nz. rewrite Nz.
  destruct (w =? 0) eqn:W.
  - apply Z.eqb_eq in W. subst w.
    apply parse_upto_simple;
      auto using is_digits_numberToString, literal_value_numberToString
           with zarith; lia.
  - apply parse_upto_mixed;
      auto using is_digits_numberToString, literal_value_numberToString
           with zarith; lia.
Qed.

(** What [parse] returns satisfies the data-model invariants. *)
Lemma parse_body_valid bound neg body f :
  parse_body bound neg body = Ok f -> valid_fraction f.
Proof.
  unfold parse_body.
  destruct (match_shape body) as [sh | ]; [ | discriminate ].
  destruct (shape_values sh) as [[[w n] d] | ] eqn:V; [ | discriminate ].
  destruct (d =? 0) eqn:D; [ discriminate | ].
  destruct ((bound <? w) || (bound <? n) || (bound <? d)); [ discriminate | ].
  intros [= <-]. apply Z.eqb_neq in D.
  assert (0 <= w /\ 0 <= n /\ 0 <= d) as (Hw & Hn & Hd).
  { destruct sh as [a | a b | a b c]; simpl in V.
    - destruct (literal_value a) eqn:A; [ | discriminate ].
      injection V as <- <- <-. apply literal_value_nonneg in A. lia.
    - destruct (literal_value a) eqn:A; [ | discriminate ].
      destruct (literal_value b) eqn:B; [ | discriminate ].
      injection V as <- <- <-.
      apply literal_value_nonneg in A, B. lia.
    - destruct (literal_value a) eqn:A; [ | discriminate ].
      destruct (literal_value b) eqn:B; [ | discriminate ].
      destruct (literal_value c) eqn:C; [ | discriminate ].
      injection V as <- <- <-.
      apply literal_value_nonneg in A, B, C. lia. }
  unfold valid_fraction. simpl. lia.
Qed.

Lemma parse_upto_valid bound raw f :
  parse_upto bound raw = Ok f -> valid_fraction f.
Proof.
  unfold parse_upto. destruct (split_sign (trim raw)) as [neg body].
  apply parse_body_valid.
Qed.

(** Whatever boundary is chosen, the fraction whose numerator lies one
    above it prints to text the parser rejects. *)
Lemma parse_upto_above_bound bound :
  0 <= bound ->
  parse_upto bound (toString (mkFraction false 0 (bound + 1) 1))
  = Err (parse_error NumberTooLarge).
Proof.
  intro B.
  assert (E : toString (mkFraction false 0 (bound + 1) 1)
              = (if false then [HYPHEN_MINUS] else [])
                ++ numberToString (bound + 1) ++ SOLIDUS :: numberToString 1).
  { unfold toString, sign_prefix; cbn [numerator wholeNumber isNegative
                                       denominator].
    replace (bound + 1 =? 0) with false by (symmetry; apply Z.eqb_neq; lia).
    reflexivity. }
  rewrite E.
  rewrite (parse_upto_simple_cases bound false
             (numberToString (bound + 1)) (numberToString 1) (bound + 1) 1).
  - change (1 =? 0) with false. cbv iota.
    replace (bound <? bound + 1) with true by (symmetry; apply Z.ltb_lt; lia).
    now rewrite orb_true_r.
  - apply is_digits_numberToString. lia.
  - apply is_digits_numberToString. lia.
  - apply literal_value_numberToString. lia.
  - apply literal_value_numberToString. lia.
Qed.

(** ** The specification's examples *)

Example parse_abc : parse (js "abc") = Err (parse_error InvalidFormat).
Proof. reflexivity. Qed.

Example parse_mixed :
  parse (js "-3 1/2") = Ok (mkFraction true 3 1 2)
  /\ toString (mkFraction true 3 1 2) = js "-3 1/2".
Proof. split; reflexivity. Qed.

Example parse_improper :
  parse (js "5/2") = Ok (mkFraction false 0 5 2)
  /\ toString (mkFraction false 0 5 2) = js "5/2".
Proof. split; reflexivity. Qed.

Example parse_at_boundary :
  parse (js "9007199254740991")
  = Ok (mkFraction false 9007199254740991 0 1)
  /\ parse (js "9007199254740992") = Err (parse_error NumberTooLarge).
Proof. split; reflexivity. Qed.

Example toString_negative_zero : toString (mkFraction true 0 0 1) = js "0".
Proof. reflexivity. Qed.

(** ** The claims about the value object *)

(** C6 (as amended): printing then parsing gives the fraction back, field
    by field, for every fraction with non-negative whole number, non-zero
    non-negative numerator and positive denominator whose three numbers do
    not exceed the safe-integer boundary. *)
Theorem parse_toString_roundtrip f :
  valid_fraction f -> numerator f <> 0 ->
  wholeNumber f <= MAX_SAFE_INTEGER ->
  numerator f <= MAX_SAFE_INTEGER ->
  denominator f <= MAX_SAFE_INTEGER ->
  parse (toString f) = Ok f.
Proof.
  intros V Nz Bw Bn Bd. unfold parse.
  now apply parse_upto_toString.
Qed.

(** C7: ["1/0"] has the form of a simple fraction and is rejected for its
    denominator: the error is [InvalidDenominator], not [InvalidFormat],
    and no fraction is returned. *)
Theorem parse_one_over_zero :
  match_shape (js "1/0") = Some (SimpleFraction (js "1") (js "0"))
  /\ parse (js "1/0") = Err (parse_error InvalidDenominator)
  /\ kind (parse_error InvalidDenominator) = InvalidDenominator.
Proof. repeat split. Qed.

(** ** Concrete runs *)

(** C6, as stated, fails: a fraction with non-negative fields, non-zero
    numerator and positive denominator whose numerator lies one above the
    safe-integer boundary prints to text that [parse] rejects. *)
Lemma roundtrip_fails_above_boundary :
  valid_fraction big_numerator
  /\ numerator big_numerator <> 0
  /\ 0 < denominator big_numerator
  /\ toString big_numerator = js "9007199254740992/1"
  /\ parse (toString big_numerator) = Err (parse_error NumberTooLarge)
  /\ parse (toString big_numerator) <> Ok big_numerator.
Proof.
  unfold valid_fraction. simpl.
  repeat split; try lia; try discriminate.
Qed.

Lemma parse_toString_roundtrip_witness :
  parse (toString minus_three_and_a_half) = Ok minus_three_and_a_half.
Proof.
  apply (parse_toString_roundtrip minus_three_and_a_half).
  - unfold valid_fraction. simpl. lia.
  - simpl. lia.
  - unfold MAX_SAFE_INTEGER. simpl. lia.
  - unfold MAX_SAFE_INTEGER. simpl. lia.
  - unfold MAX_SAFE_INTEGER. simpl. lia.
Defined.

End FractionValueFacts.

(* ================================================================== *)
(** * Lemmas: the denominator invariant *)
(* ================================================================== *)

Module InvariantFacts.

Import FractionValue FractionEditor Examples.
Import FractionValueFacts FractionEditorFacts RegExpFacts.
Open Scope Z_scope.

Lemma fromStructured_denominator d :
  denominator (fromStructured d) = or_default (dict_denominator d) 1.
Proof. reflexivity. Qed.

(** The value the watch callback leaves in [ctrl.value] is the one it
    found there or a fraction the parser returned. *)
Lemma watch_listener_value {F : FractionObjectFactory} s w :
  value (ctrl (world_of (watch_listener s w))) = value (ctrl w)
  \/ exists f,
       fromRawInputString s = Ok f
       /\ value (ctrl (world_of (watch_listener s w))) = FractionObject f.
Proof.
  destruct (RegExp.test INTERMEDIATE_REGEX s) eqn:T.
  - left. now rewrite (watch_listener_intermediate s w T).
  - destruct (fromRawInputString s) as [f | e] eqn:P.
    + right. exists f. split; trivial.
      now rewrite (watch_listener_parsed s w f T P).
    + left. now rewrite (watch_listener_rejected s w e T P).
Qed.

(** C8 (as amended): every fraction [parse] returns has a strictly
    positive denominator; [fromStructured] copies the record's denominator
    (1 when the record has none), so its result has a strictly positive
    denominator whenever the record's denominator is absent or positive;
    and a watch callback running on [parse] leaves a fraction with a
    strictly positive denominator in [ctrl.value] whenever the fraction it
    found there had one. *)
Theorem denominator_positive :
  (forall raw f, parse raw = Ok f -> 0 < denominator f)
  /\ (forall d,
        (forall n, dict_denominator d = Some n -> 0 < n) ->
        0 < denominator (fromStructured d))
  /\ (forall s w f,
        (forall f0, value (ctrl w) = FractionObject f0 ->
                    0 < denominator f0) ->
        value (ctrl (world_of
                       (watch_listener (F := SpecFractionObjectFactory) s w)))
        = FractionObject f ->
        0 < denominator f).
Proof.
  assert (P : forall raw f, parse raw = Ok f -> 0 < denominator f).
  { intros raw f H. apply (parse_upto_valid MAX_SAFE_INTEGER raw f H). }
  split; [ exact P | split ].
  - intros d H. rewrite fromStructured_denominator.
    destruct (dict_denominator d) as [n | ]; simpl; [ now apply H | lia ].
  - intros s w f Hw Hv.
    destruct (watch_listener_value (F := SpecFractionObjectFactory) s w)
      as [E | (f' & Hp & E)]; rewrite E in Hv.
    + now apply Hw.
    + injection Hv as <-. exact (P s f' Hp).
Qed.

(** ** Concrete runs *)

(** C8, as stated, fails: [fromStructured] does not validate, so a record
    with denominator 0 becomes a fraction with denominator 0. *)
Lemma fromStructured_zero_denominator :
  fromStructured zero_denominator_dict = mkFraction false 0 1 0
  /\ ~ 0 < denominator (fromStructured zero_denominator_dict).
Proof. split; [ reflexivity | simpl; lia ]. Qed.

Lemma denominator_positive_witness :
  0 < denominator minus_three_and_a_half
  /\ 0 < denominator (fromStructured (mkFractionDict None None None None))
  /\ 0 < denominator one_half.
Proof.
  destruct denominator_positive as (P & S & W).
  split; [ | split ].
  - apply (P (js "-3 1/2")). reflexivity.
  - apply S. intros n H. discriminate H.
  - apply (W (js "1/0") rejected_world one_half).
    + intros f0 H. injection H as <-. simpl. lia.
    + reflexivity.
Defined.

End InvariantFacts.

(* ================================================================== *)
(** * Lemmas: digests and edit sessions *)
(* ================================================================== *)

Module EditSessionFacts.

Import FractionEditor EditSession Examples.
Import RegExpFacts FractionEditorFacts.

(** ** The pattern, by counting *)

Lemma whitespace_not_minus c : isWhiteSpace c = true -> c <> HYPHEN_MINUS.
Proof. intros H ->. discriminate H. Qed.

Lemma count_minus_cons_minus t :
  count_minus (HYPHEN_MINUS :: t) = S (count_minus t).
Proof. unfold count_minus. now apply count_occ_cons_eq. Qed.

Lemma count_minus_cons_other c t :
  c <> HYPHEN_MINUS -> count_minus (c :: t) = count_minus t.
Proof. intro H. unfold count_minus. now apply count_occ_cons_neq. Qed.

Lemma count_minus_app a b :
  count_minus (a ++ b) = (count_minus a + count_minus b)%nat.
Proof. unfold count_minus. apply count_occ_app. Qed.

Lemma blank_run l :
  Forall (fun c => isWhiteSpace c = true) l ->
  forallb blank_or_minus l = true /\ count_minus l = 0%nat.
Proof.
  induction 1 as [ | c l Hc _ [IH1 IH2] ]; [ now split | ].
  split.
  - simpl. unfold blank_or_minus at 1. now rewrite Hc, IH1.
  - now rewrite (count_minus_cons_other c l (whitespace_not_minus c Hc)).
Qed.

Lemma blank_or_minus_cases c :
  blank_or_minus c = true -> c = HYPHEN_MINUS \/ isWhiteSpace c = true.
Proof.
  unfold blank_or_minus, isChar. intro H.
  apply orb_true_iff in H as [H | H]; [ now right | left ].
  now apply N.eqb_eq.
Qed.

Lemma blank_run_inv l :
  forallb blank_or_minus l = true -> count_minus l = 0%nat ->
  Forall (fun c => isWhiteSpace c = true) l.
Proof.
  induction l as [ | c l IH ]; simpl; intros A C; [ constructor | ].
  apply andb_true_iff in A as [Ac Al].
  destruct (blank_or_minus_cases c Ac) as [-> | W].
  - rewrite count_minus_cons_minus in C. discriminate.
  - rewrite (count_minus_cons_other c l (whitespace_not_minus c W)) in C.
    constructor; auto.
Qed.

Lemma intermediate_by_count_spec s :
  intermediate_by_count s = true <-> intermediate_input s.
Proof.
  unfold intermediate_by_count. rewrite andb_true_iff, Nat.leb_le. split.
  - intros [A C]. induction s as [ | c s IH ].
    + exists [], [], []. repeat split; auto.
    + simpl in A. apply andb_true_iff in A as [Ac As].
      destruct (blank_or_minus_cases c Ac) as [-> | W].
      * rewrite count_minus_cons_minus in C.
        exists [], [HYPHEN_MINUS], s. repeat split; auto.
        apply blank_run_inv; [ exact As | lia ].
      * rewrite (count_minus_cons_other c s (whitespace_not_minus c W)) in C.
        destruct (IH As C) as (lead & sign & trail & -> & L & S & T).
        exists (c :: lead), sign, trail. repeat split; auto.
  - intros (lead & sign & trail & -> & L & S & T).
    destruct (blank_run lead L) as [L1 L2].
    destruct (blank_run trail T) as [T1 T2].
    rewrite !forallb_app, !count_minus_app, L1, L2, T1, T2.
    destruct S as [-> | ->]; simpl; split; trivial; lia.
Qed.

Lemma intermediate_by_count_test s :
  RegExp.test INTERMEDIATE_REGEX s = intermediate_by_count s.
Proof.
  pose proof (test_INTERMEDIATE_REGEX s) as A.
  pose proof (intermediate_by_count_spec s) as B.
  destruct (RegExp.test INTERMEDIATE_REGEX s), (intermediate_by_count s);
    trivial.
  - symmetry. apply B, A. reflexivity.
  - apply A, B. reflexivity.
Qed.

(** ** Lists of labels *)

Lemma last_cons_default {A : Type} (rest : list A) :
  forall l d, last (l :: rest) d = last rest l.
Proof.
  induction rest as [ | r rest IH ]; intros l d; [ reflexivity | ].
  change (last (l :: r :: rest) d) with (last (r :: rest) d).
  now rewrite (IH r d), (IH r l).
Qed.

Lemma parser_inputs_cons l rest :
  parser_inputs (l :: rest) = parser_inputs [l] ++ parser_inputs rest.
Proof.
  unfold parser_inputs. simpl.
  now destruct (RegExp.test INTERMEDIATE_REGEX l).
Qed.

Lemma same_label_true a b : same_label a b = true -> a = b.
Proof.
  unfold same_label. now destruct (list_eq_dec N.eq_dec a b).
Qed.

Lemma changed_false last l : changed last l = false -> last = Some l.
Proof.
  destruct last as [seen | ]; simpl; [ | discriminate ].
  intro H. apply negb_false_iff in H. now rewrite (same_label_true seen l H).
Qed.

(** The label the watch saw last, then the labels it fires on, end where
    the labels written end. *)
Lemma last_fired_labels labels :
  forall seen d,
    last (seen :: fired_labels (Some seen) labels) d
    = last (seen :: labels) d.
Proof.
  induction labels as [ | l rest IH ]; intros seen d; [ reflexivity | ].
  cbn [fired_labels].
  destruct (changed (Some seen) l) eqn:C.
  - change (last (seen :: l :: fired_labels (Some l) rest) d)
      with (last (l :: fired_labels (Some l) rest) d).
    now rewrite IH.
  - apply changed_false in C. injection C as <-.
    now rewrite IH.
Qed.

Section SessionFacts.

Context {F : FractionObjectFactory}.

(** ** One firing, one edit, a whole session: closed forms *)

Lemma digest_closed_form w :
  digest w =
  Returned tt
    (mkWorld
       (mkController
          (match parsed_of (label (ctrl w)) with
           | Some f => FractionObject f
           | None => value (ctrl w)
           end)
          (label (ctrl w))
          (warning_for (label (ctrl w))))
       (calls w
        ++ map CallFromRawInputString (parser_inputs [label (ctrl w)]))).
Proof.
  unfold digest, bind, get_label, parsed_of, warning_for, parser_inputs.
  simpl. destruct (RegExp.test INTERMEDIATE_REGEX (label (ctrl w))) eqn:T.
  - rewrite (watch_listener_intermediate _ w T). simpl.
    now rewrite app_nil_r.
  - destruct (fromRawInputString (label (ctrl w))) as [f | e] eqn:P.
    + now rewrite (watch_listener_parsed _ w f T P).
    + now rewrite (watch_listener_rejected _ w e T P).
Qed.

Lemma watch_check_closed_form last w :
  watch_check last w =
  if changed last (label (ctrl w))
  then Returned (Some (label (ctrl w)))
         (mkWorld
            (mkController
               (match parsed_of (label (ctrl w)) with
                | Some f => FractionObject f
                | None => value (ctrl w)
                end)
               (label (ctrl w))
               (warning_for (label (ctrl w))))
            (calls w
             ++ map CallFromRawInputString
                  (parser_inputs [label (ctrl w)])))
  else Returned last w.
Proof.
  unfold watch_check, bind, get_label.
  destruct (changed last (label (ctrl w))); [ | reflexivity ].
  now rewrite digest_closed_form.
Qed.

Lemma edit_closed_form last l w :
  edit last l w =
  if changed last l
  then Returned (Some l)
         (mkWorld
            (mkController
               (match parsed_of l with
                | Some f => FractionObject f
                | None => value (ctrl w)
                end)
               l (warning_for l))
            (calls w ++ map CallFromRawInputString (parser_inputs [l])))
  else Returned last
         (mkWorld (mkController (value (ctrl w)) l (errorMessage (ctrl w)))
                  (calls w)).
Proof.
  unfold edit, bind, set_label. now rewrite watch_check_closed_form.
Qed.

Lemma run_edits_from_closed_form labels :
  forall last w,
  exists last',
    run_edits_from last labels w =
    Returned last'
      (mkWorld
         (mkController
            (match last_parsed (fired_labels last labels) with
             | Some f => FractionObject f
             | None => value (ctrl w)
             end)
            (List.last labels (label (ctrl w)))
            (match fired_labels last labels with
             | [] => errorMessage (ctrl w)
             | _ :: _ => warning_for (List.last (fired_labels last labels) [])
             end))
         (calls w
          ++ map CallFromRawInputString
               (parser_inputs (fired_labels last labels)))).
Proof.
  induction labels as [ | l rest IH ]; intros last w.
  - exists last. destruct w as [[v lb em] cs]. simpl.
    unfold ret, parser_inputs. simpl. now rewrite app_nil_r.
  - change (run_edits_from last (l :: rest) w)
      with (bind (edit last l) (fun last' => run_edits_from last' rest) w).
    unfold bind. rewrite edit_closed_form. cbn [fired_labels].
    destruct (changed last l).
    + destruct (IH (Some l)
                  (mkWorld
                     (mkController
                        (match parsed_of l with
                         | Some f => FractionObject f
                         | None => value (ctrl w)
                         end)
                        l (warning_for l))
                     (calls w
                      ++ map CallFromRawInputString (parser_inputs [l]))))
        as [last' E].
      exists last'. rewrite E.
      cbn [ctrl calls value label errorMessage last_parsed].
      rewrite (parser_inputs_cons l (fired_labels (Some l) rest)).
      rewrite map_app, app_assoc, !last_cons_default.
      f_equal. f_equal. f_equal.
      * now destruct (last_parsed (fired_labels (Some l) rest)).
      * destruct (fired_labels (Some l) rest) as [ | r rest' ];
          [ reflexivity | ].
        now rewrite !last_cons_default.
    + destruct (IH last
                  (mkWorld
                     (mkController (value (ctrl w)) l (errorMessage (ctrl w)))
                     (calls w)))
        as [last' E].
      exists last'. rewrite E.
      cbn [ctrl calls value label errorMessage].
      now rewrite last_cons_default.
Qed.

(** On a watch that has seen [seen], firing only on changes loses no
    parsed fraction. *)
Lemma last_parsed_fired_labels labels :
  forall seen,
    last_parsed (seen :: fired_labels (Some seen) labels)
    = last_parsed (seen :: labels).
Proof.
  induction labels as [ | l rest IH ]; intro seen; [ reflexivity | ].
  cbn [fired_labels].
  destruct (changed (Some seen) l) eqn:C.
  - change (last_parsed (seen :: l :: fired_labels (Some l) rest))
      with (match last_parsed (l :: fired_labels (Some l) rest) with
            | Some f => Some f
            | None => parsed_of seen
            end).
    now rewrite IH.
  - apply changed_false in C. injection C as <-.
    rewrite IH. simpl.
    now destruct (last_parsed rest), (parsed_of seen).
Qed.

Lemma last_parsed_fired_labels_fresh labels :
  last_parsed (fired_labels None labels) = last_parsed labels.
Proof.
  destruct labels as [ | l rest ]; [ reflexivity | ].
  apply (last_parsed_fired_labels rest l).
Qed.

Lemma last_fired_labels_fresh labels d :
  List.last (fired_labels None labels) d = List.last labels d.
Proof.
  destruct labels as [ | l rest ]; [ reflexivity | ].
  apply (last_fired_labels rest l d).
Qed.

Lemma run_edits_closed_form labels w :
  run_edits labels w =
  Returned tt
    (mkWorld
       (mkController
          (match last_parsed labels with
           | Some f => FractionObject f
           | None => value (ctrl w)
           end)
          (List.last labels (label (ctrl w)))
          (match labels with
           | [] => errorMessage (ctrl w)
           | _ :: _ => warning_for (List.last labels [])
           end))
       (calls w
        ++ map CallFromRawInputString
             (parser_inputs (fired_labels None labels)))).
Proof.
  unfold run_edits, bind.
  destruct (run_edits_from_closed_form labels None w) as [last' E].
  rewrite E. unfold ret.
  rewrite last_parsed_fired_labels_fresh, last_fired_labels_fresh.
  destruct labels as [ | l rest ]; reflexivity.
Qed.

Lemma last_parsed_app pre post :
  last_parsed (pre ++ post) =
  match last_parsed post with
  | Some f => Some f
  | None => last_parsed pre
  end.
Proof.
  induction pre as [ | l pre IH ]; simpl.
  - now destruct (last_parsed post).
  - rewrite IH. now destruct (last_parsed post).
Qed.

Lemma last_parsed_none post :
  Forall (fun l => parsed_of l = None) post -> last_parsed post = None.
Proof.
  induction 1 as [ | l post Hl _ IH ]; simpl; [ reflexivity | ].
  now rewrite IH.
Qed.

Lemma controller_closed_form w :
  controller w =
  Returned tt
    (mkWorld
       (mkController
          (value (ctrl w))
          (match as_dict (value (ctrl w)) with
           | Some d => Fraction_toString (fromDict d)
           | None => js "0"
           end)
          [])
       (calls w
        ++ match as_dict (value (ctrl w)) with
           | Some d => [CallFromDict d; CallToString (fromDict d)]
           | None => []
           end)).
Proof.
  unfold controller, bind, set_errorMessage, get_value. simpl.
  destruct (as_dict (value (ctrl w))) as [d | ].
  - unfold call_fromDict, call_toString, set_label, record_call. simpl.
    now rewrite <- app_assoc.
  - unfold ret, set_label. simpl. now rewrite app_nil_r.
Qed.

(** ** Sessions *)


(** X2: after a session, [getWarningText()] depends on the last label
    alone, not on the earlier edits nor on the state the session started
    from: it is empty when that label is intermediate or parses, and the
    thrown error's message when it is rejected. *)
Theorem warning_reflects_last_edit labels l w :
  exists w',
    run_edits (labels ++ [l]) w = Returned tt w'
    /\ getWarningText w' = Returned (warning_for l) w'.
Proof.
  eexists. split; [ apply run_edits_closed_form | ].
  unfold getWarningText, get_errorMessage. cbn [ctrl errorMessage].
  rewrite last_last.
  destruct (labels ++ [l]) eqn:E; [ | reflexivity ].
  now apply app_eq_nil in E as [_ E].
Qed.

(** X3: after a session, [ctrl.value] is the fraction parsed from the
    latest label that parsed, and the value the session started with when
    no label did. *)
Theorem value_after_edits labels w :
  value (ctrl (world_of (run_edits labels w)))
  = match last_parsed labels with
    | Some f => FractionObject f
    | None => value (ctrl w)
    end.
Proof. now rewrite run_edits_closed_form. Qed.

(** X4: once a label has parsed to [f], any number of later labels that
    are intermediate or rejected leave [ctrl.value] at [f], whatever was
    typed before. *)
Theorem value_survives_bad_edits pre l post f w :
  ~ intermediate_input l ->
  fromRawInputString l = Ok f ->
  Forall (fun p => intermediate_input p
                   \/ exists e, fromRawInputString p = Err e) post ->
  value (ctrl (world_of (run_edits (pre ++ l :: post) w))) = FractionObject f.
Proof.
  intros I P B. rewrite run_edits_closed_form. cbn [ctrl value].
  rewrite last_parsed_app. simpl.
  rewrite (last_parsed_none post).
  - unfold parsed_of.
    apply test_INTERMEDIATE_REGEX_false in I. now rewrite I, P.
  - eapply Forall_impl; [ | exact B ].
    intros p [Ip | [e Ep]]; unfold parsed_of.
    + apply test_INTERMEDIATE_REGEX in Ip. now rewrite Ip.
    + rewrite Ep. now destruct (RegExp.test INTERMEDIATE_REGEX p).
Qed.

(** X5: the watch firing a second time on an unchanged label leaves the
    controller (value, label and warning) exactly as the first firing
    left it. *)
Theorem digest_twice w :
  ctrl (world_of (bind digest (fun _ => digest) w))
  = ctrl (world_of (digest w)).
Proof.
  unfold bind. rewrite (digest_closed_form w), digest_closed_form.
  cbn [ctrl world_of value label errorMessage].
  now destruct (parsed_of (label (ctrl w))).
Qed.

(** ** The pattern *)

(** X7: a label holding a code unit that is neither whitespace nor ['-'],
    or holding two or more ['-'], always reaches the parser. *)
Theorem visible_label_reaches_parser s w :
  (exists c, In c s /\ isWhiteSpace c = false /\ c <> HYPHEN_MINUS)
  \/ (2 <= count_minus s)%nat ->
  calls (world_of (watch_listener s w))
  = calls w ++ [CallFromRawInputString s].
Proof.
  intro H. rewrite watch_listener_calls.
  assert (T : RegExp.test INTERMEDIATE_REGEX s = false).
  { rewrite intermediate_by_count_test. unfold intermediate_by_count.
    destruct H as [(c & Hin & Hw & Hm) | H].
    - destruct (forallb blank_or_minus s) eqn:A; [ | reflexivity ].
      rewrite forallb_forall in A. specialize (A c Hin).
      unfold blank_or_minus, isChar in A. rewrite Hw in A. simpl in A.
      apply N.eqb_eq in A. contradiction.
    - apply andb_false_iff. right. apply Nat.leb_gt. lia. }
  now rewrite T.
Qed.

(** ** The first digest *)

(** X8: when the controller is constructed on a [null] bound value and
    the watch fires on the label it has just set, the parser is called on
    ["0"]: if it returns a fraction, [ctrl.value] is no longer [null] but
    that fraction; if it throws, [ctrl.value] stays [null] and the warning
    is the error's message. *)
Theorem first_digest_null w :
  value (ctrl w) = Null ->
  first_digest w =
  Returned tt
    (mkWorld
       (mkController
          (match fromRawInputString (js "0") with
           | Ok f => FractionObject f
           | Err _ => Null
           end)
          (js "0")
          (match fromRawInputString (js "0") with
           | Ok _ => []
           | Err e => message e
           end))
       (calls w ++ [CallFromRawInputString (js "0")])).
Proof.
  intro E. unfold first_digest, bind.
  rewrite controller_closed_form, digest_closed_form.
  cbn [ctrl calls value label errorMessage]. rewrite E. simpl as_dict.
  cbv iota. rewrite app_nil_r.
  unfold parsed_of, warning_for, parser_inputs.
  change (RegExp.test INTERMEDIATE_REGEX (js "0")) with false.
  simpl. now destruct (fromRawInputString (js "0")).
Qed.

(** X9: when the controller is constructed on a non-null bound value and
    the watch fires on the label it has just set, a label that is not
    intermediate and parses to [f] makes [ctrl.value] the fraction [f]:
    the bound record is replaced by the parse of its own text, with no
    warning. *)
Theorem first_digest_bound w d f :
  as_dict (value (ctrl w)) = Some d ->
  ~ intermediate_input (Fraction_toString (fromDict d)) ->
  fromRawInputString (Fraction_toString (fromDict d)) = Ok f ->
  first_digest w =
  Returned tt
    (mkWorld
       (mkController (FractionObject f) (Fraction_toString (fromDict d)) [])
       (calls w
        ++ [CallFromDict d; CallToString (fromDict d);
            CallFromRawInputString (Fraction_toString (fromDict d))])).
Proof.
  intros E I P. apply test_INTERMEDIATE_REGEX_false in I.
  unfold first_digest, bind.
  rewrite controller_closed_form, digest_closed_form.
  cbn [ctrl calls value label errorMessage]. rewrite E.
  unfold parsed_of, warning_for, parser_inputs. simpl. rewrite I, P. simpl.
  now rewrite <- app_assoc.
Qed.

End SessionFacts.

(** X6: the pattern's test accepts a label exactly when the label holds
    nothing but whitespace and ['-'] and holds at most one ['-'],
    wherever it stands. *)
Theorem test_INTERMEDIATE_REGEX_by_count s :
  RegExp.test INTERMEDIATE_REGEX s = true
  <-> Forall (fun c => isWhiteSpace c = true \/ c = HYPHEN_MINUS) s
      /\ (count_occ N.eq_dec s HYPHEN_MINUS <= 1)%nat.
Proof.
  rewrite intermediate_by_count_test. unfold intermediate_by_count.
  rewrite andb_true_iff, Nat.leb_le, forallb_forall, Forall_forall.
  unfold count_minus, blank_or_minus, isChar.
  split; intros [A C]; (split; [ | exact C ]); intros c Hc;
    specialize (A c Hc).
  - apply orb_true_iff in A as [A | A]; [ now left | right ].
    now apply N.eqb_eq.
  - apply orb_true_iff. destruct A as [A | ->]; [ now left | right ].
    apply N.eqb_refl.
Qed.

(** ** Concrete runs *)

Lemma value_survives_bad_edits_witness :
  value
    (ctrl (world_of
             (run_edits (F := SpecFractionObjectFactory)
                ([js "5/2"] ++ js "-3 1/2" :: [js "-"; js "1/0"])
                null_world)))
  = FractionObject minus_three_and_a_half.
Proof.
  apply (value_survives_bad_edits (F := SpecFractionObjectFactory)
           [js "5/2"] (js "-3 1/2") [js "-"; js "1/0"]
           minus_three_and_a_half null_world).
  - apply test_INTERMEDIATE_REGEX_false. reflexivity.
  - reflexivity.
  - constructor.
    + left. apply test_INTERMEDIATE_REGEX. reflexivity.
    + constructor; [ | constructor ].
      right. eexists. reflexivity.
Defined.

Lemma visible_label_reaches_parser_witness :
  calls (world_of
           (watch_listener (F := SpecFractionObjectFactory)
              (js "--") null_world))
  = [CallFromRawInputString (js "--")]
  /\ calls (world_of
              (watch_listener (F := SpecFractionObjectFactory)
                 (js " 7") null_world))
     = [CallFromRawInputString (js " 7")].
Proof.
  split.
  - apply (visible_label_reaches_parser
             (F := SpecFractionObjectFactory) (js "--") null_world).
    right. vm_compute. lia.
  - apply (visible_label_reaches_parser
             (F := SpecFractionObjectFactory) (js " 7") null_world).
    left. exists 55%N. split; [ simpl; auto | split ].
    + reflexivity.
    + discriminate.
Defined.

Lemma first_digest_null_witness :
  first_digest (F := SpecFractionObjectFactory) null_world
  = Returned tt
      (mkWorld
         (mkController (FractionObject (mkFraction false 0 0 1)) (js "0") [])
         [CallFromRawInputString (js "0")]).
Proof.
  apply (first_digest_null (F := SpecFractionObjectFactory) null_world).
  reflexivity.
Defined.

Lemma first_digest_bound_witness :
  first_digest (F := SpecFractionObjectFactory) rejected_world
  = Returned tt
      (mkWorld
         (mkController (FractionObject one_half) (js "1/2") [])
         [CallFromRawInputString (js "1/0");
          CallFromDict
            (mkFractionDict (Some false) (Some 0%Z) (Some 1%Z) (Some 2%Z));
          CallToString one_half;
          CallFromRawInputString (js "1/2")]).
Proof.
  apply (first_digest_bound (F := SpecFractionObjectFactory) rejected_world
           (mkFractionDict (Some false) (Some 0%Z) (Some 1%Z) (Some 2%Z))
           one_half).
  - reflexivity.
  - apply test_INTERMEDIATE_REGEX_false. reflexivity.
  - reflexivity.
Defined.

(** The controller built on [null], its first digest, then the labels
    ["x"], ["x"], ["7"], ["7"]: the parser is called three times, on
    ["0"], ["x"] and ["7"]. *)
Example run_session_repeated_labels :
  calls (world_of
           (run_session (F := SpecFractionObjectFactory)
              [js "x"; js "x"; js "7"; js "7"] null_world))
  = [CallFromRawInputString (js "0");
     CallFromRawInputString (js "x");
     CallFromRawInputString (js "7")].
Proof. reflexivity. Qed.

End EditSessionFacts.
